(** * vsolver constraints: a shallow embedding of [constraints.go]

    The file follows the Go source declaration by declaration.  The
    [semver] package the source imports is an external library; it is
    taken as an interface ([semver.Package]) so that every statement below
    holds for any implementation of it, and one small implementation
    ([Interval.package]) is given so that the statements can be run on
    concrete requirement strings. *)

From Stdlib Require Import String Ascii List NArith Bool Lia.
Import ListNotations.
Local Open Scope string_scope.

(** Go's [error]: only its message matters here; [None : option error] is
    the nil error. *)
Definition error := string.

Definition is_nil {A : Type} (e : option A) : bool :=
  match e with
  | None => true
  | Some _ => false
  end.

(** ** The imported package [github.com/Masterminds/semver] *)

Module semver.

(** What [constraints.go] uses of the package: the two types
    [*semver.Version] and [semver.Constraint], the constructors
    [semver.NewConstraint] and [semver.None], the test [semver.IsNone],
    and the methods [Matches] and [Intersect] of a [semver.Constraint].
    A [*semver.Version] is itself passed where a [semver.Constraint] is
    expected ([c.c.Intersect(tc.sv)]); [of_Version] is that conversion.
    [Equal] is the version equality of the package.  A call that returns
    [(Constraint, error)] returns [inl c] for [(c, nil)] and [inr e] for
    a non-nil error [e].

    The single law is the one the source relies on when it initialises
    [rc] with [semver.None()] and tests it with [semver.IsNone]. *)
Class Package : Type := {
  Version : Type;
  Constraint : Type;
  NewConstraint : string -> Constraint + error;
  None : Constraint;
  IsNone : Constraint -> bool;
  of_Version : Version -> Constraint;
  Matches : Constraint -> Version -> option error;
  Intersect : Constraint -> Constraint -> Constraint;
  Equal : Version -> Version -> bool;
  IsNone_None : IsNone None = true
}.

End semver.

(** ** Declarations of the package that live outside [constraints.go] *)

(** Modelled from the spec: the declaration of [ConstraintType] is not in
    [constraints.go].  The spec names three kinds (branch, revision,
    version) and speaks of "any other declared kind"; the three constants
    keep the names the source uses, and [otherConstraintType] stands for
    every remaining value of the type. *)
Inductive ConstraintType : Type :=
| BranchConstraint
| RevisionConstraint
| VersionConstraint
| otherConstraintType (tag : N).

Section Vsolver.

Context {P : semver.Package}.

(** Modelled from the spec: the version types are declared outside
    [constraints.go].  The source shows [floatingVersion], [Revision] and
    [plainVersion] to be string types, [semverVersion] to carry a field
    [sv] and [versionPair] a field [v] holding a version; the spec makes
    a paired version a revision annotated with a version, hence [r]. *)
Inductive Version : Type :=
| floatingVersion (body : string)
| Revision (body : string)
| plainVersion (body : string)
| semverVersion (sv : semver.Version)
| versionPair (v : Version) (r : string).

(** The values a [Constraint] interface can hold: the three types
    declared in [constraints.go], and the version types, which the
    source uses as constraints ([NewConstraint] returns three of them,
    the type switch of [semverConstraint.Intersect] names the other
    two). *)
Inductive Constraint : Type :=
| semverConstraint (c : semver.Constraint)
| anyConstraint
| noneConstraint
| ofVersion (v : Version).

Definition none : Constraint := noneConstraint.
Definition any : Constraint := anyConstraint.

(** [x != none] on interface values: the dynamic type of [none] is the
    empty struct [noneConstraint], so the comparison is a test of the
    dynamic type. *)
Definition is_none (x : Constraint) : bool :=
  match x with
  | noneConstraint => true
  | _ => false
  end.

(** *** [NewConstraint] *)

Definition NewConstraint (t : ConstraintType) (body : string)
  : option Constraint * option error :=
  match t with
  | BranchConstraint => (Some (ofVersion (floatingVersion body)), None)
  | RevisionConstraint => (Some (ofVersion (Revision body)), None)
  | VersionConstraint =>
      match semver.NewConstraint body with
      | inr _ => (Some (ofVersion (plainVersion body)), None)
      | inl c => (Some (semverConstraint c), None)
      end
  | otherConstraintType _ => (None, Some "Unknown ConstraintType provided")
  end.

(** *** [semverConstraint] *)

(** The receiver is the struct [semverConstraint{c}]; the methods take its
    only field. *)
Definition semverConstraint_Matches (c : semver.Constraint) (v : Version)
  : bool :=
  match v with
  | semverVersion sv => is_nil (semver.Matches c sv)
  | versionPair tv _ =>
      match tv with
      | semverVersion sv2 => is_nil (semver.Matches c sv2)
      | _ => false
      end
  | _ => false
  end.

(** The [semver.Constraint] that the type switch of
    [semverConstraint.Intersect] leaves in [rc]. *)
Definition semverConstraint_Intersect_rc (c : semver.Constraint)
  (c2 : Constraint) : semver.Constraint :=
  match c2 with
  | ofVersion (semverVersion sv) => semver.Intersect c (semver.of_Version sv)
  | semverConstraint tc => semver.Intersect c tc
  | ofVersion (versionPair tv _) =>
      match tv with
      | semverVersion sv2 => semver.Intersect c (semver.of_Version sv2)
      | _ => semver.None
      end
  | _ => semver.None
  end.

Definition semverConstraint_Intersect (c : semver.Constraint)
  (c2 : Constraint) : Constraint :=
  let rc := semverConstraint_Intersect_rc c c2 in
  if semver.IsNone rc then none else semverConstraint rc.

Definition semverConstraint_MatchesAny (c : semver.Constraint)
  (c2 : Constraint) : bool :=
  negb (is_none (semverConstraint_Intersect c c2)).

(** *** [anyConstraint] *)

Definition anyConstraint_String : string := "*".

Definition anyConstraint_Matches (v : Version) : bool := true.

Definition anyConstraint_MatchesAny (c : Constraint) : bool := true.

Definition anyConstraint_Intersect (c : Constraint) : Constraint := c.

(** *** [noneConstraint] *)

Definition noneConstraint_String : string := "".

Definition noneConstraint_Matches (v : Version) : bool := false.

Definition noneConstraint_MatchesAny (c : Constraint) : bool := false.

Definition noneConstraint_Intersect (c : Constraint) : Constraint := none.

(** *** The version types as constraints *)

(** Modelled from the spec: equality of two version values, key by key
    (section 6 lists the equalities taken from the version family). *)
Fixpoint Version_eqb (v1 v2 : Version) : bool :=
  match v1, v2 with
  | floatingVersion a, floatingVersion b => String.eqb a b
  | Revision a, Revision b => String.eqb a b
  | plainVersion a, plainVersion b => String.eqb a b
  | semverVersion a, semverVersion b => semver.Equal a b
  | versionPair a r, versionPair b r' => Version_eqb a b && String.eqb r r'
  | _, _ => false
  end.

(** Modelled from the spec: the [Intersect] methods of the version types
    are declared outside [constraints.go].  Section 4.3 has every variant
    treat the two sentinels first (universal gives the receiver back, empty
    gives empty); section 4.4 has two constraints of the same variant with
    equal keys give the receiver back, and every other pair give empty. *)
Definition Version_Intersect (v : Version) (c2 : Constraint) : Constraint :=
  match c2 with
  | anyConstraint => ofVersion v
  | noneConstraint => none
  | ofVersion v2 => if Version_eqb v v2 then ofVersion v else none
  | semverConstraint _ => none
  end.

(** *** The interface method [Constraint.Intersect]

    A call [a.Intersect(b)] runs the method of the dynamic type of [a]. *)
Definition Intersect (a b : Constraint) : Constraint :=
  match a with
  | semverConstraint c => semverConstraint_Intersect c b
  | anyConstraint => anyConstraint_Intersect b
  | noneConstraint => noneConstraint_Intersect b
  | ofVersion v => Version_Intersect v b
  end.

End Vsolver.

Arguments Version : clear implicits.
Arguments Constraint : clear implicits.

(** ** What a caller may know of the imported package

    Three properties an intersection of version constraints can have.  They
    are no part of the interface above; a statement that needs one takes
    it as a hypothesis. *)

(** The intersection of two constraints accepts a version exactly when
    both accept it. *)
Definition Intersect_accepts (P : semver.Package) : Prop :=
  forall (a b : @semver.Constraint P) (sv : @semver.Version P),
    is_nil (semver.Matches (semver.Intersect a b) sv) =
    is_nil (semver.Matches a sv) && is_nil (semver.Matches b sv).

(** [IsNone] fails of an intersection exactly when it accepts some
    version. *)
Definition IsNone_accepts (P : semver.Package) : Prop :=
  forall (a b : @semver.Constraint P),
    semver.IsNone (semver.Intersect a b) = false <->
    exists sv, is_nil (semver.Matches (semver.Intersect a b) sv) = true.

(** The intersection with a single version is empty exactly when the
    constraint rejects that version. *)
Definition IsNone_version (P : semver.Package) : Prop :=
  forall (c : @semver.Constraint P) (sv : @semver.Version P),
    semver.IsNone (semver.Intersect c (semver.of_Version sv)) =
    negb (is_nil (semver.Matches c sv)).

(** The two shapes a range constraint or [none] as receiver can return. *)
Definition settled {P : semver.Package} (a : Constraint P) : Prop :=
  a = none \/
  exists rc, a = semverConstraint rc /\ semver.IsNone rc = false.

(** ** An implementation of the [semver] interface *)

(** Modelled from the spec: the range sub-algebra of section 4.2, which the
    source delegates to the imported package.  A version is a triple
    major.minor.patch ordered lexicographically (pre-release tags are left
    out); a constraint is a union of half-open intervals; intersection is
    the product of the interval bounds, keeping the non-empty intervals
    only; the empty union is the package's [None()]. *)

Module Interval.

Local Open Scope N_scope.

Definition version : Type := N * N * N.

Definition eqb (a b : version) : bool :=
  let '(a1, a2, a3) := a in
  let '(b1, b2, b3) := b in
  (a1 =? b1) && (a2 =? b2) && (a3 =? b3).

Definition ltb (a b : version) : bool :=
  let '(a1, a2, a3) := a in
  let '(b1, b2, b3) := b in
  (a1 <? b1) || ((a1 =? b1) && ((a2 <? b2) || ((a2 =? b2) && (a3 <? b3)))).

(** The order [ltb] decides. *)
Definition lt (a b : version) : Prop :=
  let '(a1, a2, a3) := a in
  let '(b1, b2, b3) := b in
  a1 < b1 \/ (a1 = b1 /\ (a2 < b2 \/ (a2 = b2 /\ a3 < b3))).

Definition leb (a b : version) : bool := negb (ltb b a).

Definition vmax (a b : version) : version := if ltb a b then b else a.

Definition vmin (a b : version) : version := if ltb a b then a else b.

(** The least version above [a]. *)
Definition next (a : version) : version :=
  let '(a1, a2, a3) := a in (a1, a2, a3 + 1).

(** [lo <= v], and [v < hi] when there is an upper bound. *)
Record interval : Type := { lo : version; hi : option version }.

Definition range : Type := list interval.

Definition inhabited (i : interval) : bool :=
  match hi i with
  | Some h => ltb (lo i) h
  | None => true
  end.

Definition member_interval (v : version) (i : interval) : bool :=
  leb (lo i) v &&
  match hi i with
  | Some h => ltb v h
  | None => true
  end.

Definition member (v : version) (r : range) : bool :=
  existsb (member_interval v) r.

Definition meet_hi (a b : option version) : option version :=
  match a, b with
  | Some x, Some y => Some (vmin x y)
  | Some x, None => Some x
  | None, _ => b
  end.

Definition meet_interval (a b : interval) : interval :=
  {| lo := vmax (lo a) (lo b); hi := meet_hi (hi a) (hi b) |}.

Definition meet (r1 r2 : range) : range :=
  filter inhabited (flat_map (fun a => map (meet_interval a) r2) r1).

Definition is_empty (r : range) : bool :=
  match r with
  | [] => true
  | _ :: _ => false
  end.

Definition exactly (v : version) : range :=
  [ {| lo := v; hi := Some (next v) |} ].

Definition everything : range := [ {| lo := (0, 0, 0); hi := None |} ].

(** *** Reading a range expression: comparators separated by commas *)

Fixpoint split (sep : ascii) (s : string) : list string :=
  match s with
  | EmptyString => [EmptyString]
  | String ch rest =>
      if Ascii.eqb ch sep then EmptyString :: split sep rest
      else
        match split sep rest with
        | [] => [String ch EmptyString]
        | w :: ws => String ch w :: ws
        end
  end.

Definition digit (ch : ascii) : option N :=
  let n := N_of_ascii ch in
  if (48 <=? n) && (n <=? 57) then Some (n - 48) else None.

Fixpoint number_from (acc : N) (s : string) : option N :=
  match s with
  | EmptyString => Some acc
  | String ch rest =>
      match digit ch with
      | Some d => number_from (10 * acc + d) rest
      | None => None
      end
  end.

Definition number (s : string) : option N :=
  match s with
  | EmptyString => None
  | _ => number_from 0 s
  end.

Definition parse_version (s : string) : option version :=
  match map number (split "." s) with
  | [Some a; Some b; Some c] => Some (a, b, c)
  | _ => None
  end.

Definition parse_comparator (s : string) : option interval :=
  match s with
  | String ">" (String "=" w) =>
      option_map (fun v => {| lo := v; hi := None |}) (parse_version w)
  | String "<" (String "=" w) =>
      option_map (fun v => {| lo := (0, 0, 0); hi := Some (next v) |})
        (parse_version w)
  | String ">" w =>
      option_map (fun v => {| lo := next v; hi := None |}) (parse_version w)
  | String "<" w =>
      option_map (fun v => {| lo := (0, 0, 0); hi := Some v |})
        (parse_version w)
  | String "=" w =>
      option_map (fun v => {| lo := v; hi := Some (next v) |})
        (parse_version w)
  | _ =>
      option_map (fun v => {| lo := v; hi := Some (next v) |})
        (parse_version s)
  end.

Fixpoint parse_all (ws : list string) : option range :=
  match ws with
  | [] => Some everything
  | w :: rest =>
      match parse_comparator w, parse_all rest with
      | Some i, Some r => Some (meet [i] r)
      | _, _ => None
      end
  end.

Definition parse (s : string) : range + error :=
  match parse_all (split "," s) with
  | Some r => inl r
  | None => inr "improper constraint"%string
  end.

Definition matches (r : range) (v : version) : option error :=
  if member v r then None else Some "version does not satisfy the constraint"%string.

Definition package : semver.Package := {|
  semver.Version := version;
  semver.Constraint := range;
  semver.NewConstraint := parse;
  semver.None := [];
  semver.IsNone := is_empty;
  semver.of_Version := exactly;
  semver.Matches := matches;
  semver.Intersect := meet;
  semver.Equal := eqb;
  semver.IsNone_None := eq_refl
|}.

End Interval.


(** ** Constraints and versions over the interval implementation *)

Module Sample.

Definition build : ConstraintType -> string ->
                   option (Constraint Interval.package) * option error :=
  NewConstraint (P := Interval.package).

(** The constraint the factory builds from a requirement string of kind
    [VersionConstraint] (the factory never returns nil for that kind). *)
Definition range (body : string) : Constraint Interval.package :=
  match build VersionConstraint body with
  | (Some a, _) => a
  | (None, _) => none
  end.

Definition semver_of (major minor patch : N) : Version Interval.package :=
  semverVersion (P := Interval.package) (major, minor, patch).

End Sample.

(** * Properties *)

Section Properties.

Context {P : semver.Package}.

Implicit Types (c tc rc : @semver.Constraint P) (sv : @semver.Version P).
Implicit Types (a b x : Constraint P) (v : Version P) (s r body : string).

(** ** Shared facts about [semverConstraint.Intersect] *)

Lemma semverConstraint_Intersect_unfold c x :
  semverConstraint_Intersect c x =
  if semver.IsNone (semverConstraint_Intersect_rc c x) then none
  else semverConstraint (semverConstraint_Intersect_rc c x).
Proof. reflexivity. Qed.

Lemma semverConstraint_Intersect_rc_None c x :
  semverConstraint_Intersect_rc c x = semver.None ->
  semverConstraint_Intersect c x = none.
Proof.
  intros Hrc. rewrite semverConstraint_Intersect_unfold, Hrc.
  now rewrite semver.IsNone_None.
Qed.

Lemma semverConstraint_Intersect_tag c x :
  is_none (semverConstraint_Intersect c x) =
  semver.IsNone (semverConstraint_Intersect_rc c x).
Proof.
  rewrite semverConstraint_Intersect_unfold.
  now destruct (semver.IsNone (semverConstraint_Intersect_rc c x)).
Qed.

Lemma semverConstraint_Intersect_sentinel c x :
  x = any \/ x = none -> semverConstraint_Intersect c x = none.
Proof.
  intros [-> | ->]; now apply semverConstraint_Intersect_rc_None.
Qed.

(** The universal sentinel as receiver gives its operand back, whatever the
    operand is. *)
Lemma anyConstraint_Intersect_id x : Intersect any x = x.
Proof. reflexivity. Qed.

(** ** Sentinels *)

(** C1.  The claim makes [any] a two-sided identity of intersection.  The
    code gives [any.Intersect(x) = x], but a range constraint as receiver
    has no case for [any] in its type switch: [rc] stays [semver.None()]
    and the method returns [none], which is not the range constraint. *)
Theorem Intersect_range_any_is_none c :
  Intersect (semverConstraint c) any = none /\
  Intersect (semverConstraint c) any <> semverConstraint c /\
  Intersect any (semverConstraint c) = semverConstraint c.
Proof.
  assert (H : Intersect (semverConstraint c) any = none).
  { cbn [Intersect]. apply semverConstraint_Intersect_sentinel. now left. }
  repeat split; [exact H | rewrite H; discriminate].
Qed.

(** C2.  The claim makes intersection commutative.  A range constraint and
    [any] give [none] in one order and the range constraint in the
    other. *)
Theorem Intersect_range_any_not_commutative c :
  Intersect (semverConstraint c) any <> Intersect any (semverConstraint c).
Proof.
  cbn [Intersect]. unfold anyConstraint_Intersect.
  rewrite (semverConstraint_Intersect_sentinel c any) by now left.
  discriminate.
Qed.

(** C3.  The claim makes [MatchesAny] agree with [Intersect] on every pair.
    [anyConstraint.MatchesAny] answers [true] without looking at its
    operand, while [any.Intersect(none)] is [none]. *)
Theorem anyConstraint_MatchesAny_none_disagrees :
  anyConstraint_MatchesAny (none : Constraint P) = true /\
  Intersect any (none : Constraint P) = none /\
  anyConstraint_MatchesAny (none : Constraint P) <>
    negb (is_none (Intersect any (none : Constraint P))).
Proof. repeat split. discriminate. Qed.

(** Where C3 does hold in [constraints.go]: for a range constraint and for
    [none] as receiver on every operand, and for [any] as receiver on every
    operand but [none]. *)
Lemma semverConstraint_MatchesAny_agrees c x :
  semverConstraint_MatchesAny c x =
  negb (is_none (Intersect (semverConstraint c) x)).
Proof. reflexivity. Qed.

Lemma noneConstraint_MatchesAny_agrees x :
  noneConstraint_MatchesAny x = negb (is_none (Intersect none x)).
Proof. reflexivity. Qed.

Lemma anyConstraint_MatchesAny_agrees_iff x :
  anyConstraint_MatchesAny x = negb (is_none (Intersect any x)) <->
  x <> none.
Proof.
  unfold anyConstraint_MatchesAny. rewrite anyConstraint_Intersect_id.
  destruct x; cbn; split; intros H; try discriminate; try reflexivity.
  now elim H.
Qed.

(** C4.  [none] absorbs on both sides: [c.Intersect(none)] and
    [none.Intersect(c)] are [none] for every constraint [c]. *)
Theorem Intersect_none_absorbing a :
  Intersect a none = none /\ Intersect none a = none.
Proof.
  split; [| reflexivity].
  destruct a as [c | | | v]; cbn [Intersect].
  - apply semverConstraint_Intersect_sentinel. now right.
  - reflexivity.
  - reflexivity.
  - reflexivity.
Qed.

(** On the modelled methods of the version types the other order of C9
    gives [none] as well. *)
Lemma Version_Intersect_range v c :
  Intersect (ofVersion v) (semverConstraint c) = none.
Proof. reflexivity. Qed.

(** ** Range constraints *)

(** C5.  When the intersection computed by the [semver] package is empty
    ([semver.IsNone] holds of it), [semverConstraint.Intersect] returns the
    sentinel [none]; otherwise it wraps that intersection.  Hence no result
    is a range constraint around an empty [semver] constraint, and the tag
    of the result tells the two cases apart. *)
Theorem semverConstraint_Intersect_normalises c x :
  (semver.IsNone (semverConstraint_Intersect_rc c x) = true ->
   Intersect (semverConstraint c) x = none) /\
  (semver.IsNone (semverConstraint_Intersect_rc c x) = false ->
   Intersect (semverConstraint c) x =
   semverConstraint (semverConstraint_Intersect_rc c x)) /\
  (forall rc, Intersect (semverConstraint c) x = semverConstraint rc ->
              semver.IsNone rc = false) /\
  is_none (Intersect (semverConstraint c) x) =
  semver.IsNone (semverConstraint_Intersect_rc c x).
Proof.
  cbn [Intersect]. rewrite semverConstraint_Intersect_tag.
  rewrite semverConstraint_Intersect_unfold.
  destruct (semver.IsNone (semverConstraint_Intersect_rc c x)) eqn:E;
    repeat split; try discriminate; try reflexivity.
  intros rc [= <-]. exact E.
Qed.

(** C8.  A range constraint matches a version exactly when the version is a
    [semverVersion], or a [versionPair] around a [semverVersion], whose
    semantic version the [semver] constraint accepts (its [Matches] returns
    the nil error).  A revision, a floating version, a plain version and a
    pair around anything but a [semverVersion] are not matched. *)
Theorem semverConstraint_Matches_iff c v :
  (semverConstraint_Matches c v = true <->
   exists sv, (v = semverVersion sv \/
               exists r, v = versionPair (semverVersion sv) r) /\
              semver.Matches c sv = None) /\
  (forall s, semverConstraint_Matches c (Revision s) = false) /\
  (forall s, semverConstraint_Matches c (floatingVersion s) = false) /\
  (forall s, semverConstraint_Matches c (plainVersion s) = false) /\
  (forall v' r, (forall sv, v' <> semverVersion sv) ->
                semverConstraint_Matches c (versionPair v' r) = false).
Proof.
  split; [| repeat split; try reflexivity].
  - split.
    + destruct v as [s | s | s | sv | v' r]; cbn; try discriminate.
      * intros H. exists sv. split; [now left |].
        now destruct (semver.Matches c sv).
      * destruct v' as [s | s | s | sv | v'' r']; try discriminate.
        intros H. exists sv. split; [right; now exists r |].
        now destruct (semver.Matches c sv).
    + intros (sv & [-> | [r ->]] & H); cbn; now rewrite H.
  - intros v' r H. destruct v'; try reflexivity. now elim (H sv).
Qed.

(** C9.  A range constraint intersected with a revision, a floating
    version or a plain version is [none]. *)
Theorem semverConstraint_Intersect_other_variant c s :
  Intersect (semverConstraint c) (ofVersion (Revision s)) = none /\
  Intersect (semverConstraint c) (ofVersion (floatingVersion s)) = none /\
  Intersect (semverConstraint c) (ofVersion (plainVersion s)) = none.
Proof.
  repeat split; cbn [Intersect];
    now apply semverConstraint_Intersect_rc_None.
Qed.

(** C10.  A range constraint also takes bare versions as operand.  For a
    [semverVersion], alone or inside a [versionPair], the result is the
    [semver] intersection of the receiver with that one version, turned
    into [none] when it is empty; for a [versionPair] around any other
    version the result is [none]. *)
Theorem semverConstraint_Intersect_bare_version c sv r :
  Intersect (semverConstraint c) (ofVersion (semverVersion sv)) =
    (if semver.IsNone (semver.Intersect c (semver.of_Version sv)) then none
     else semverConstraint (semver.Intersect c (semver.of_Version sv))) /\
  Intersect (semverConstraint c)
            (ofVersion (versionPair (semverVersion sv) r)) =
    (if semver.IsNone (semver.Intersect c (semver.of_Version sv)) then none
     else semverConstraint (semver.Intersect c (semver.of_Version sv))) /\
  (forall v, (forall sv', v <> semverVersion sv') ->
             Intersect (semverConstraint c) (ofVersion (versionPair v r)) =
             none).
Proof.
  repeat split.
  intros v H. cbn [Intersect]. apply semverConstraint_Intersect_rc_None.
  destruct v; try reflexivity. now elim (H sv0).
Qed.

(** ** The factory *)

(** C6.  With the kind [VersionConstraint] the factory returns a constraint
    and the nil error for every string: the range constraint around the
    parsed expression when [semver.NewConstraint] succeeds, the plain
    version over the raw string when it fails. *)
Theorem NewConstraint_VersionConstraint body :
  (exists a, NewConstraint VersionConstraint body = (Some a, None)) /\
  (forall c, semver.NewConstraint body = inl c ->
             NewConstraint VersionConstraint body =
             (Some (semverConstraint c), None)) /\
  (forall e, semver.NewConstraint body = inr e ->
             NewConstraint VersionConstraint body =
             (Some (ofVersion (plainVersion body)), None)).
Proof.
  cbn [NewConstraint].
  destruct (semver.NewConstraint body) as [c | e].
  - split; [now exists (semverConstraint c) |].
    split; [now intros c' [= ->] | discriminate].
  - split; [now exists (ofVersion (plainVersion body)) |].
    split; [discriminate | reflexivity].
Qed.

(** C7.  The factory returns no constraint and the error "Unknown
    ConstraintType provided" exactly when the kind is none of
    [BranchConstraint], [RevisionConstraint] and [VersionConstraint]; for
    these three it returns a constraint and the nil error.  No other
    result is possible. *)
Theorem NewConstraint_unknown_kind t body :
  (NewConstraint (P := P) t body =
     (None, Some "Unknown ConstraintType provided") <->
   t <> BranchConstraint /\ t <> RevisionConstraint /\
   t <> VersionConstraint) /\
  ((exists a, NewConstraint t body = (Some a, None)) <->
   t = BranchConstraint \/ t = RevisionConstraint \/
   t = VersionConstraint) /\
  (NewConstraint (P := P) t body =
     (None, Some "Unknown ConstraintType provided") \/
   exists a, NewConstraint t body = (Some a, None)).
Proof.
  destruct t as [ | | | n]; cbn [NewConstraint].
  - repeat split; try discriminate; auto.
    + intros (H & _). now elim H.
    + now exists (ofVersion (floatingVersion body)).
    + right. now exists (ofVersion (floatingVersion body)).
  - repeat split; try discriminate; auto.
    + intros (_ & H & _). now elim H.
    + now exists (ofVersion (Revision body)).
    + right. now exists (ofVersion (Revision body)).
  - assert (H : exists a : Constraint P,
               match semver.NewConstraint body with
               | inl c => (Some (semverConstraint c), None)
               | inr _ => (Some (ofVersion (plainVersion body)), None)
               end = (Some a, @None error)).
    { destruct (semver.NewConstraint body) as [c | e]; eauto. }
    repeat split; try discriminate; auto.
    + destruct (semver.NewConstraint body); discriminate.
    + intros (_ & _ & H'). now elim H'.
  - repeat split; try discriminate; auto.
    + intros [a H]. discriminate.
    + intros [H | [H | H]]; discriminate.
Qed.

End Properties.

(** * The interval implementation is an intersection algebra *)

Module IntervalFacts.

Import Interval.
Local Open Scope N_scope.

Lemma ltb_lt (a b : version) : ltb a b = true <-> lt a b.
Proof.
  destruct a as [[a1 a2] a3], b as [[b1 b2] b3]. unfold ltb, lt.
  rewrite !orb_true_iff, !andb_true_iff, !orb_true_iff, !andb_true_iff,
    !N.ltb_lt, !N.eqb_eq.
  reflexivity.
Qed.

Lemma ltb_spec (a b : version) : reflect (lt a b) (ltb a b).
Proof. apply iff_reflect. symmetry. apply ltb_lt. Qed.

Ltac order :=
  unfold leb, vmax, vmin in *;
  repeat match goal with
         | |- context [ltb ?x ?y] => destruct (ltb_spec x y)
         | H : context [ltb ?x ?y] |- _ => destruct (ltb_spec x y)
         end;
  cbn in *; try reflexivity; try discriminate;
  exfalso; unfold lt in *;
  repeat match goal with
         | v : version |- _ => destruct v as [[? ?] ?]
         end;
  lia.

Lemma leb_vmax (a b v : version) :
  leb (vmax a b) v = leb a v && leb b v.
Proof. order. Qed.

Lemma ltb_vmin (a b v : version) :
  ltb v (vmin a b) = ltb v a && ltb v b.
Proof. order. Qed.

Lemma leb_ltb_trans (a v h : version) :
  leb a v = true -> ltb v h = true -> ltb a h = true.
Proof. intros H1 H2. order. Qed.

Lemma leb_refl (a : version) : leb a a = true.
Proof. order. Qed.

Lemma member_meet_interval (v : version) (i j : interval) :
  member_interval v (meet_interval i j) =
  member_interval v i && member_interval v j.
Proof.
  destruct i as [li [hi|]], j as [lj [hj|]]; unfold member_interval; cbn;
    rewrite leb_vmax, ?ltb_vmin;
    destruct (leb li v), (leb lj v); cbn; try reflexivity;
    try (destruct (ltb v hi)); try (destruct (ltb v hj)); reflexivity.
Qed.

Lemma member_inhabited (v : version) (i : interval) :
  member_interval v i = true -> inhabited i = true.
Proof.
  destruct i as [l [h|]]; unfold member_interval, inhabited; cbn;
    [| reflexivity].
  intros H. apply andb_true_iff in H as [H1 H2].
  now apply (leb_ltb_trans l v h).
Qed.

Lemma existsb_filter_inhabited (v : version) (r : range) :
  existsb (member_interval v) (filter inhabited r) =
  existsb (member_interval v) r.
Proof.
  induction r as [| i r IH]; cbn; [reflexivity |].
  destruct (inhabited i) eqn:E; cbn; rewrite IH; [reflexivity |].
  destruct (member_interval v i) eqn:M; [| reflexivity].
  apply member_inhabited in M. congruence.
Qed.

Lemma member_map_meet (v : version) (i : interval) (r : range) :
  existsb (member_interval v) (map (meet_interval i) r) =
  member_interval v i && member v r.
Proof.
  induction r as [| j r IH]; cbn.
  - now rewrite andb_false_r.
  - rewrite IH, member_meet_interval. unfold member.
    destruct (member_interval v i); reflexivity.
Qed.

(** A version is in the intersection of two ranges exactly when it is in
    both. *)
Lemma member_meet (v : version) (r1 r2 : range) :
  member v (meet r1 r2) = member v r1 && member v r2.
Proof.
  unfold meet, member at 1. rewrite existsb_filter_inhabited.
  induction r1 as [| i r1 IH]; cbn; [reflexivity |].
  rewrite existsb_app, IH, member_map_meet.
  destruct (member_interval v i), (member v r2);
    cbn; rewrite ?andb_false_r, ?andb_true_r; reflexivity.
Qed.

(** Every interval of an intersection holds a version, so an intersection
    is empty exactly when it has no member. *)
Lemma inhabited_member (i : interval) :
  inhabited i = true -> member_interval (lo i) i = true.
Proof.
  destruct i as [l [h|]]; unfold inhabited, member_interval; cbn.
  - intros ->. now rewrite andb_true_r, leb_refl.
  - intros _. now rewrite andb_true_r, leb_refl.
Qed.

Lemma is_empty_meet (r1 r2 : range) :
  is_empty (meet r1 r2) = true <->
  forall v, member v (meet r1 r2) = false.
Proof.
  split.
  - destruct (meet r1 r2); [reflexivity | discriminate].
  - intros H. destruct (meet r1 r2) as [| i r] eqn:E; [reflexivity |].
    assert (Hi : In i (filter inhabited
              (flat_map (fun a => map (meet_interval a) r2) r1))).
    { fold (meet r1 r2). rewrite E. now left. }
    apply filter_In in Hi as [_ Hi].
    specialize (H (lo i)). cbn in H.
    rewrite (inhabited_member i Hi) in H. discriminate.
Qed.

(** Over intervals, a range constraint intersected with a range constraint
    is the sentinel [none] exactly when no version satisfies both. *)
Lemma Intersect_ranges_none_iff (r1 r2 : range) :
  Intersect (semverConstraint (P := package) r1)
            (semverConstraint (P := package) r2) = none
  <-> forall v, member v r1 && member v r2 = false.
Proof.
  cbn [Intersect]. rewrite semverConstraint_Intersect_unfold.
  cbn [semverConstraint_Intersect_rc semver.Intersect semver.IsNone package].
  split.
  - intros H v. rewrite <- member_meet. apply is_empty_meet.
    destruct (is_empty (meet r1 r2)); [reflexivity | discriminate].
  - intros H.
    assert (E : is_empty (meet r1 r2) = true).
    { apply is_empty_meet. intros v. rewrite member_meet. apply H. }
    now rewrite E.
Qed.

End IntervalFacts.

(** * The statements on concrete requirement strings *)

Module Examples.

Import Sample.

Example range_parses :
  build VersionConstraint ">=1.0.0,<2.0.0" =
  (Some (semverConstraint (P := Interval.package)
           [ {| Interval.lo := (1, 0, 0)%N;
                Interval.hi := Some (2, 0, 0)%N |} ]), None).
Proof. reflexivity. Qed.

Example fallback_to_plainVersion :
  build VersionConstraint "not-a-semver-string" =
  (Some (ofVersion (plainVersion "not-a-semver-string")), None).
Proof. reflexivity. Qed.

Example bogus_kind :
  build (otherConstraintType 7) "x" =
  (None, Some "Unknown ConstraintType provided").
Proof. reflexivity. Qed.

Example range_with_any_left : Intersect any (range ">=1.0.0") = range ">=1.0.0".
Proof. reflexivity. Qed.

Example range_with_any_right : Intersect (range ">=1.0.0") any = none.
Proof. reflexivity. Qed.

Example range_is_not_none : range ">=1.0.0" <> none.
Proof. discriminate. Qed.

Example any_MatchesAny_none :
  anyConstraint_MatchesAny (none : Constraint Interval.package) = true /\
  is_none (Intersect any (none : Constraint Interval.package)) = true.
Proof. split; reflexivity. Qed.

Example range_with_range :
  exists c,
    Intersect (range ">=1.0.0,<2.0.0") (range ">=1.5.0") = semverConstraint c /\
    map (semverConstraint_Matches c)
      [semver_of 1 5 0; semver_of 1 9 9; semver_of 1 4 9; semver_of 2 0 0] =
    [true; true; false; false].
Proof. eexists. split; reflexivity. Qed.

Example disjoint_ranges :
  Intersect (range "<1.0.0") (range ">=2.0.0") = none.
Proof. reflexivity. Qed.

Example range_with_revision :
  Intersect (range ">=1.0.0") (ofVersion (Revision "abc123")) = none.
Proof. reflexivity. Qed.

Example range_with_version :
  Intersect (range ">=1.0.0") (ofVersion (semver_of 1 2 3)) = range "1.2.3" /\
  Intersect (range ">=1.0.0") (ofVersion (semver_of 0 9 0)) = none /\
  Intersect (range ">=1.0.0")
            (ofVersion (versionPair (semver_of 1 2 3) "abc123")) =
  range "1.2.3" /\
  Intersect (range ">=1.0.0")
            (ofVersion (versionPair (plainVersion "v1") "abc123")) = none.
Proof. repeat split; reflexivity. Qed.

Example range_matches :
  exists c,
    range ">=1.0.0" = semverConstraint c /\
    semverConstraint_Matches c (semver_of 1 2 3) = true /\
    semverConstraint_Matches c (versionPair (semver_of 1 2 3) "abc123") =
    true /\
    semverConstraint_Matches c (semver_of 0 9 0) = false /\
    semverConstraint_Matches c (Revision "abc123") = false /\
    semverConstraint_Matches c
      (versionPair (floatingVersion "main") "abc123") = false.
Proof. eexists. repeat split; reflexivity. Qed.

End Examples.

(** * How the operations compose *)

Section Composition.

Context {P : semver.Package}.

Implicit Types (c tc rc : @semver.Constraint P) (sv : @semver.Version P).
Implicit Types (a b x : Constraint P) (v : Version P) (s r body : string).
Implicit Types (xs : list (Constraint P)) (cs : list (@semver.Constraint P)).

Lemma fold_Intersect_none xs : fold_left Intersect xs none = none.
Proof. induction xs as [| x xs IH]; [reflexivity | exact IH]. Qed.

Lemma Intersect_range_settled c x : settled (Intersect (semverConstraint c) x).
Proof.
  cbn [Intersect]. rewrite semverConstraint_Intersect_unfold.
  destruct (semver.IsNone (semverConstraint_Intersect_rc c x)) eqn:E.
  - now left.
  - right. now exists (semverConstraint_Intersect_rc c x).
Qed.

Lemma fold_Intersect_settled xs :
  forall a, settled a -> settled (fold_left Intersect xs a).
Proof.
  induction xs as [| x xs IH]; intros a Ha; [exact Ha |].
  cbn [fold_left]. apply IH.
  destruct Ha as [-> | (rc & -> & _)].
  - now left.
  - apply Intersect_range_settled.
Qed.

Lemma semverConstraint_Matches_Intersect c tc v :
  Intersect_accepts P ->
  semverConstraint_Matches (semver.Intersect c tc) v =
  semverConstraint_Matches c v && semverConstraint_Matches tc v.
Proof.
  intros L. destruct v as [s | s | s | sv | v' r]; try reflexivity.
  - apply L.
  - destruct v'; try reflexivity. apply L.
Qed.

Lemma semverConstraint_Matches_IsNone c tc v :
  IsNone_accepts P ->
  semver.IsNone (semver.Intersect c tc) = true ->
  semverConstraint_Matches (semver.Intersect c tc) v = false.
Proof.
  intros L E.
  assert (H : forall sv,
             is_nil (semver.Matches (semver.Intersect c tc) sv) = false).
  { intros sv.
    destruct (is_nil (semver.Matches (semver.Intersect c tc) sv)) eqn:M;
      [| reflexivity].
    assert (E' : semver.IsNone (semver.Intersect c tc) = false)
      by (apply L; now exists sv).
    congruence. }
  destruct v as [s | s | s | sv | v' r]; try reflexivity.
  - apply H.
  - destruct v'; try reflexivity. apply H.
Qed.

(** X1.  Once an operand is [none], a chain of intersections that starts
    from a range constraint or from [none] ends in [none], whatever the
    other operands are. *)
Theorem fold_Intersect_meets_none a xs :
  a = none \/ ((exists c, a = semverConstraint c) /\ In none xs) ->
  fold_left Intersect xs a = none.
Proof.
  intros [-> | [[c ->] Hin]]; [apply fold_Intersect_none |].
  revert c Hin. induction xs as [| x xs IH]; intros c Hin; [easy |].
  cbn [fold_left]. destruct Hin as [-> | Hin].
  - cbn [Intersect].
    rewrite (semverConstraint_Intersect_sentinel c none) by now right.
    apply fold_Intersect_none.
  - destruct (Intersect_range_settled c x) as [-> | (rc & -> & _)].
    + apply fold_Intersect_none.
    + now apply IH.
Qed.

(** X2.  A chain of one or more intersections that starts from a range
    constraint ends in [none] or in a range constraint whose [semver]
    constraint is not empty; it never ends in [any], in a version, or in
    a range constraint around an empty [semver] constraint. *)
Theorem fold_Intersect_range_invariant c x xs :
  fold_left Intersect (x :: xs) (semverConstraint c) = none \/
  exists rc, fold_left Intersect (x :: xs) (semverConstraint c) =
             semverConstraint rc /\ semver.IsNone rc = false.
Proof.
  cbn [fold_left]. apply fold_Intersect_settled, Intersect_range_settled.
Qed.

(** X3.  A range constraint reports a possible match ([MatchesAny]) only
    for an operand that is a range constraint, a [semverVersion] or a
    [versionPair] around a [semverVersion]; for [any], [none], revisions,
    floating and plain versions it answers [false]. *)
Theorem semverConstraint_MatchesAny_operand c x :
  semverConstraint_MatchesAny c x = true ->
  (exists tc, x = semverConstraint tc) \/
  (exists sv, x = ofVersion (semverVersion sv)) \/
  (exists sv r, x = ofVersion (versionPair (semverVersion sv) r)).
Proof.
  unfold semverConstraint_MatchesAny.
  destruct x as [tc | | | v].
  - intros _. left. now exists tc.
  - rewrite semverConstraint_Intersect_rc_None by reflexivity. discriminate.
  - rewrite semverConstraint_Intersect_rc_None by reflexivity. discriminate.
  - destruct v as [s | s | s | sv | v' r].
    1-3: rewrite semverConstraint_Intersect_rc_None by reflexivity;
      discriminate.
    + intros _. right. left. now exists sv.
    + destruct v' as [s | s | s | sv | v'' r'].
      4: intros _; right; right; now exists sv, r.
      all: rewrite semverConstraint_Intersect_rc_None by reflexivity;
        discriminate.
Qed.

(** X4.  When the package's intersection with a single version is empty
    exactly for the versions the constraint rejects, a range constraint
    reports a possible match with a version used as a constraint exactly
    when it matches that version, for every kind of version. *)
Theorem semverConstraint_MatchesAny_version c v :
  IsNone_version P ->
  semverConstraint_MatchesAny c (ofVersion v) = semverConstraint_Matches c v.
Proof.
  intros L. unfold semverConstraint_MatchesAny.
  rewrite semverConstraint_Intersect_tag.
  destruct v as [s | s | s | sv | v' r]; cbn;
    rewrite ?semver.IsNone_None; try reflexivity.
  - rewrite L. apply negb_involutive.
  - destruct v' as [s | s | s | sv | v'' r']; cbn;
      rewrite ?semver.IsNone_None; try reflexivity.
    rewrite L. apply negb_involutive.
Qed.

(** X5.  When the package's intersection accepts what both constraints
    accept and is empty exactly when it accepts nothing, a range
    constraint reports a possible match with another range constraint
    exactly when some semantic version is matched by both. *)
Theorem semverConstraint_MatchesAny_ranges c tc :
  Intersect_accepts P -> IsNone_accepts P ->
  semverConstraint_MatchesAny c (semverConstraint tc) = true <->
  exists sv, semverConstraint_Matches c (semverVersion sv) = true /\
             semverConstraint_Matches tc (semverVersion sv) = true.
Proof.
  intros L1 L2. unfold semverConstraint_MatchesAny.
  rewrite semverConstraint_Intersect_tag, negb_true_iff. cbn.
  rewrite (L2 c tc). split; intros (sv & H); exists sv.
  - rewrite L1 in H. now apply andb_true_iff in H.
  - rewrite L1. now apply andb_true_iff.
Qed.

(** X6.  Under the same two properties of the package, folding range
    constraints together by [Intersect] gives a constraint that matches a
    version exactly when every one of them does: the result is either
    [none], and then some constraint of the chain rejects the version, or
    a range constraint that matches the version exactly when all do. *)
Theorem fold_Intersect_ranges_Matches c cs v :
  Intersect_accepts P -> IsNone_accepts P ->
  (fold_left Intersect (map semverConstraint cs) (semverConstraint c) = none /\
   forallb (fun c' => semverConstraint_Matches c' v) (c :: cs) = false) \/
  (exists rc,
     fold_left Intersect (map semverConstraint cs) (semverConstraint c) =
     semverConstraint rc /\
     semverConstraint_Matches rc v =
     forallb (fun c' => semverConstraint_Matches c' v) (c :: cs)).
Proof.
  intros L1 L2. revert c.
  induction cs as [| tc cs IH]; intros c.
  - right. exists c. split; [reflexivity |]. cbn. now rewrite andb_true_r.
  - cbn [map fold_left Intersect]. rewrite semverConstraint_Intersect_unfold.
    cbn [semverConstraint_Intersect_rc].
    pose proof (semverConstraint_Matches_Intersect c tc v L1) as HM.
    destruct (semver.IsNone (semver.Intersect c tc)) eqn:E.
    + left. split; [apply fold_Intersect_none |].
      pose proof (semverConstraint_Matches_IsNone c tc v L2 E) as H0.
      cbn [forallb]. rewrite andb_assoc, <- HM, H0. reflexivity.
    + destruct (IH (semver.Intersect c tc)) as [[H1 H2] | (rc & H1 & H2)].
      * left. split; [exact H1 |].
        cbn [forallb] in *. now rewrite andb_assoc, <- HM.
      * right. exists rc. split; [exact H1 |].
        cbn [forallb] in *. now rewrite andb_assoc, <- HM.
Qed.

(** X7.  The factory never builds a sentinel: whatever the kind and the
    string, the constraint it returns is neither [any] nor [none]. *)
Theorem NewConstraint_never_sentinel t body :
  fst (NewConstraint (P := P) t body) <> Some any /\
  fst (NewConstraint (P := P) t body) <> Some none.
Proof.
  destruct t; cbn [NewConstraint];
    try destruct (semver.NewConstraint body); split; discriminate.
Qed.

(** X8.  A range constraint reports a possible match with a constraint
    built by the factory only when that constraint was built with the kind
    [VersionConstraint] from a string the package parses, and the
    package's intersection of the two is not empty. *)
Theorem semverConstraint_MatchesAny_built c t body a :
  fst (NewConstraint t body) = Some a ->
  semverConstraint_MatchesAny c a = true ->
  t = VersionConstraint /\
  exists tc, semver.NewConstraint body = inl tc /\
             a = semverConstraint tc /\
             semver.IsNone (semver.Intersect c tc) = false.
Proof.
  unfold semverConstraint_MatchesAny.
  rewrite semverConstraint_Intersect_tag, negb_true_iff.
  destruct t; cbn [NewConstraint fst].
  - intros [= <-]. cbn. now rewrite semver.IsNone_None.
  - intros [= <-]. cbn. now rewrite semver.IsNone_None.
  - destruct (semver.NewConstraint body) as [tc | e]; cbn [fst].
    + intros [= <-]. cbn. intros E. split; [reflexivity |]. now exists tc.
    + intros [= <-]. cbn. now rewrite semver.IsNone_None.
  - discriminate.
Qed.

(** X9.  The kind can be read back from what the factory builds: two
    calls that return the same constraint were made with the same kind,
    and, unless the kind is [VersionConstraint], with the same string. *)
Theorem NewConstraint_kind_determined t t' body body' a :
  NewConstraint t body = (Some a, None) ->
  NewConstraint t' body' = (Some a, None) ->
  t = t' /\ (t <> VersionConstraint -> body = body').
Proof.
  destruct t, t'; cbn [NewConstraint];
    try destruct (semver.NewConstraint body);
    try destruct (semver.NewConstraint body');
    intros [= <-] [= E]; split; try reflexivity; try congruence.
Qed.

End Composition.

(** * The interval implementation has the three properties *)

Module IntervalLaws.

Import Interval IntervalFacts.
Local Open Scope N_scope.

Lemma is_nil_matches (r : range) (v : version) :
  is_nil (matches r v) = member v r.
Proof. unfold matches. now destruct (member v r). Qed.

Lemma member_exactly (v v' : version) :
  member v' (exactly v) = true <-> v' = v.
Proof.
  unfold member, exactly, member_interval, leb. cbn [existsb lo hi].
  rewrite orb_false_r, andb_true_iff, negb_true_iff.
  destruct (ltb_spec v' v) as [H1 | H1], (ltb_spec v' (next v)) as [H2 | H2];
    destruct v as [[a1 a2] a3], v' as [[b1 b2] b3];
    unfold lt, next in *; split.
  all: try (intros [E1 E2]; discriminate).
  all: try (intros [= -> -> ->]; exfalso; lia).
  all: try (intros _; f_equal; [f_equal |]; lia).
  all: try (intros _; split; reflexivity).
Qed.

Lemma meet_nonempty (r1 r2 : range) :
  is_empty (meet r1 r2) = false <->
  exists v, member v (meet r1 r2) = true.
Proof.
  split.
  - intros E. destruct (meet r1 r2) as [| i r] eqn:M; [discriminate |].
    assert (Hi : In i (filter inhabited
              (flat_map (fun a => map (meet_interval a) r2) r1))).
    { fold (meet r1 r2). rewrite M. now left. }
    apply filter_In in Hi as [_ Hi].
    exists (lo i). cbn. now rewrite (inhabited_member i Hi).
  - intros [v H]. destruct (meet r1 r2); [discriminate | reflexivity].
Qed.

Lemma package_Intersect_accepts : Intersect_accepts package.
Proof.
  intros a b v. cbn. rewrite !is_nil_matches. apply member_meet.
Qed.

Lemma package_IsNone_accepts : IsNone_accepts package.
Proof.
  intros a b. cbn. rewrite meet_nonempty.
  split; intros [v H]; exists v; now rewrite is_nil_matches in *.
Qed.

Lemma package_IsNone_version : IsNone_version package.
Proof.
  intros r v. cbn. rewrite is_nil_matches.
  destruct (member v r) eqn:M; cbn.
  - apply meet_nonempty. exists v. rewrite member_meet, M.
    now apply member_exactly.
  - destruct (is_empty (meet r (exactly v))) eqn:E; [reflexivity |].
    apply meet_nonempty in E as [v' H].
    rewrite member_meet in H. apply andb_true_iff in H as [H1 H2].
    apply member_exactly in H2. congruence.
Qed.

End IntervalLaws.

(** * The composition statements on concrete constraints *)

Module CompositionExamples.

Import Sample.

Lemma fold_Intersect_meets_none_witness :
  In none [range "<3.0.0"; none; any] /\
  fold_left Intersect [range "<3.0.0"; none; any] (range ">=1.0.0") = none.
Proof.
  split; [right; now left |].
  apply fold_Intersect_meets_none. right. split.
  - eexists. reflexivity.
  - right. now left.
Defined.

Lemma semverConstraint_MatchesAny_operand_witness :
  exists c,
    range ">=1.0.0" = semverConstraint c /\
    semverConstraint_MatchesAny c (range "<2.0.0") = true /\
    ((exists tc, range "<2.0.0" = semverConstraint tc) \/
     (exists sv, range "<2.0.0" = ofVersion (semverVersion sv)) \/
     (exists sv r,
        range "<2.0.0" = ofVersion (versionPair (semverVersion sv) r))).
Proof.
  eexists. split; [reflexivity |]. split; [reflexivity |].
  apply (semverConstraint_MatchesAny_operand
           (P := Interval.package)
           [ {| Interval.lo := (1, 0, 0)%N; Interval.hi := None |} ]).
  reflexivity.
Defined.

Lemma semverConstraint_MatchesAny_version_witness :
  IsNone_version Interval.package /\
  exists c,
    range ">=1.0.0,<2.0.0" = semverConstraint c /\
    semverConstraint_MatchesAny c
      (ofVersion (versionPair (semver_of 1 4 2) "abc123")) =
    semverConstraint_Matches c (versionPair (semver_of 1 4 2) "abc123").
Proof.
  split; [exact IntervalLaws.package_IsNone_version |].
  eexists. split; [reflexivity |].
  apply semverConstraint_MatchesAny_version.
  exact IntervalLaws.package_IsNone_version.
Defined.

Lemma semverConstraint_MatchesAny_ranges_witness :
  Intersect_accepts Interval.package /\
  IsNone_accepts Interval.package /\
  exists c tc,
    range ">=1.0.0" = semverConstraint c /\
    range "<2.0.0" = semverConstraint tc /\
    (semverConstraint_MatchesAny c (semverConstraint tc) = true <->
     exists sv, semverConstraint_Matches c (semverVersion sv) = true /\
                semverConstraint_Matches tc (semverVersion sv) = true).
Proof.
  split; [exact IntervalLaws.package_Intersect_accepts |].
  split; [exact IntervalLaws.package_IsNone_accepts |].
  do 2 eexists. split; [reflexivity |]. split; [reflexivity |].
  apply semverConstraint_MatchesAny_ranges.
  - exact IntervalLaws.package_Intersect_accepts.
  - exact IntervalLaws.package_IsNone_accepts.
Defined.

Lemma fold_Intersect_ranges_Matches_witness :
  Intersect_accepts Interval.package /\
  IsNone_accepts Interval.package /\
  exists c tc tc',
    range ">=1.0.0" = semverConstraint c /\
    range "<2.0.0" = semverConstraint tc /\
    range ">=1.5.0" = semverConstraint tc' /\
    ((fold_left Intersect (map semverConstraint [tc; tc'])
        (semverConstraint c) = none /\
      forallb (fun c' => semverConstraint_Matches c' (semver_of 1 7 0))
        [c; tc; tc'] = false) \/
     (exists rc,
        fold_left Intersect (map semverConstraint [tc; tc'])
          (semverConstraint c) = semverConstraint rc /\
        semverConstraint_Matches rc (semver_of 1 7 0) =
        forallb (fun c' => semverConstraint_Matches c' (semver_of 1 7 0))
          [c; tc; tc'])).
Proof.
  split; [exact IntervalLaws.package_Intersect_accepts |].
  split; [exact IntervalLaws.package_IsNone_accepts |].
  do 3 eexists. do 3 (split; [reflexivity |]).
  apply fold_Intersect_ranges_Matches.
  - exact IntervalLaws.package_Intersect_accepts.
  - exact IntervalLaws.package_IsNone_accepts.
Defined.

Lemma semverConstraint_MatchesAny_built_witness :
  exists c : Interval.range,
    range ">=1.0.0" = semverConstraint (P := Interval.package) c /\
    fst (build VersionConstraint "<2.0.0") = Some (range "<2.0.0") /\
    semverConstraint_MatchesAny (P := Interval.package) c
      (range "<2.0.0") = true /\
    VersionConstraint = VersionConstraint /\
    exists tc : Interval.range,
      Interval.parse "<2.0.0" = inl tc /\
      range "<2.0.0" = semverConstraint (P := Interval.package) tc /\
               Interval.is_empty (Interval.meet c tc) = false.
Proof.
  eexists. split; [reflexivity |]. split; [reflexivity |].
  split; [reflexivity |].
  apply (semverConstraint_MatchesAny_built
           (P := Interval.package)
           [ {| Interval.lo := (1, 0, 0)%N; Interval.hi := None |} ]
           VersionConstraint "<2.0.0" (range "<2.0.0")); reflexivity.
Defined.

Lemma NewConstraint_kind_determined_witness :
  build BranchConstraint "main" =
    (Some (ofVersion (floatingVersion "main")), None) /\
  BranchConstraint = BranchConstraint /\
  (BranchConstraint <> VersionConstraint -> "main" = "main").
Proof.
  split; [reflexivity |].
  apply (NewConstraint_kind_determined
           (P := Interval.package) BranchConstraint BranchConstraint
           "main" "main" (ofVersion (floatingVersion "main")));
    reflexivity.
Defined.

End CompositionExamples.
